(** * The Merkle tree of [merkle-tree/merkle-tree.ipynb]

    A shallow embedding of the notebook's code cell: the module-level
    function [hash] (SHA-256, hexadecimal digest, through Python's
    [hashlib]) and the class [MerkleTree] with its methods [__init__],
    [build_tree], [get_root], [get_proof] and [verify_proof].

    Python values are embedded as follows.
    - A [str] is a [string]: the sequence of its UTF-8 bytes.  The notebook
      only concatenates strings, compares them and encodes them with
      [.encode()], and all three commute with the UTF-8 encoding.
    - An [int] is a [Z]; [%] and [//] by a positive divisor are [Z.modulo]
      and [Z.div] (both round towards minus infinity, as Python does).
    - A [list] is a [list]; subscripting follows Python, negative indices
      included, and raises [IndexError] out of range.
    - An exception is a value [Raise e] of the type [result]; the recursion
      of [build_tree] is bounded by the interpreter's recursion limit, which
      is a parameter of the embedding. *)

From Stdlib Require Import ZArith List String Ascii Bool Lia Arith.
Import ListNotations.

Local Open Scope string_scope.
Local Open Scope list_scope.

(** ** hashlib.sha256 (FIPS 180-4) on byte sequences *)

Module hashlib.
Local Open Scope Z_scope.

Definition w32 (x : Z) : Z := Z.land x 0xffffffff.
Definition add32 (x y : Z) : Z := w32 (x + y).
Definition rotr (n x : Z) : Z :=
  Z.lor (Z.shiftr x n) (w32 (Z.shiftl x (32 - n))).
Definition shr (n x : Z) : Z := Z.shiftr x n.
Definition not32 (x : Z) : Z := Z.lxor x 0xffffffff.

Definition Ch (x y z : Z) : Z :=
  Z.lxor (Z.land x y) (Z.land (not32 x) z).
Definition Maj (x y z : Z) : Z :=
  Z.lxor (Z.land x y) (Z.lxor (Z.land x z) (Z.land y z)).
Definition Sigma0 (x : Z) : Z :=
  Z.lxor (rotr 2 x) (Z.lxor (rotr 13 x) (rotr 22 x)).
Definition Sigma1 (x : Z) : Z :=
  Z.lxor (rotr 6 x) (Z.lxor (rotr 11 x) (rotr 25 x)).
Definition sigma0 (x : Z) : Z :=
  Z.lxor (rotr 7 x) (Z.lxor (rotr 18 x) (shr 3 x)).
Definition sigma1 (x : Z) : Z :=
  Z.lxor (rotr 17 x) (Z.lxor (rotr 19 x) (shr 10 x)).

(** The first [n] primes, by trial division, from the candidate [p] on;
    [found] holds the primes below [p], largest first. *)
Fixpoint primes_from (fuel n : nat) (p : Z) (found : list Z) : list Z :=
  match fuel, n with
  | O, _ | _, O => rev found
  | S fuel', S n' =>
      if forallb (fun q => negb (p mod q =? 0)) found
      then primes_from fuel' n' (p + 1) (p :: found)
      else primes_from fuel' n (p + 1) found
  end.

Definition primes (n : nat) : list Z := primes_from 400 n 2 [].

(** The integer part of the cube root of [x], for [x] below [2 ^ (3 * bits)]. *)
Fixpoint cbrt_bits (bits : nat) (x r : Z) : Z :=
  match bits with
  | O => r
  | S bits' =>
      let r' := r + 2 ^ Z.of_nat bits' in
      cbrt_bits bits' x (if r' * r' * r' <=? x then r' else r)
  end.

(** The round constants: the first 32 bits of the fractional parts of the
    cube roots of the first 64 primes. *)
Definition K : list Z :=
  Eval vm_compute in
    map (fun p => w32 (cbrt_bits 40 (Z.shiftl p 96) 0)) (primes 64).

(** The initial hash value: the first 32 bits of the fractional parts of
    the square roots of the first 8 primes. *)
Definition H0 : list Z :=
  Eval vm_compute in
    map (fun p => w32 (Z.sqrt (Z.shiftl p 64))) (primes 8).

(** Big-endian encoding of [x] on [n] bytes. *)
Fixpoint be_bytes (n : nat) (x : Z) : list Z :=
  match n with
  | O => []
  | S n' => Z.land (Z.shiftr x (8 * Z.of_nat n')) 0xff :: be_bytes n' x
  end.

(** Message padding: one bit 1, zero bits up to 448 modulo 512, then the
    length in bits on 64 bits. *)
Definition pad (msg : list Z) : list Z :=
  let len := Z.of_nat (List.length msg) in
  msg ++ 0x80 :: repeat 0 (Z.to_nat ((55 - len) mod 64))
      ++ be_bytes 8 (8 * len).

Definition be_word (b0 b1 b2 b3 : Z) : Z :=
  Z.lor (Z.shiftl b0 24) (Z.lor (Z.shiftl b1 16) (Z.lor (Z.shiftl b2 8) b3)).

Fixpoint words (bytes : list Z) : list Z :=
  match bytes with
  | b0 :: b1 :: b2 :: b3 :: rest => be_word b0 b1 b2 b3 :: words rest
  | _ => []
  end.

(** The message schedule, newest word first: [w] holds W(t-1), W(t-2), ... *)
Fixpoint schedule (n : nat) (w : list Z) : list Z :=
  match n with
  | O => w
  | S n' =>
      let wt := add32 (add32 (sigma1 (nth 1 w 0)) (nth 6 w 0))
                      (add32 (sigma0 (nth 14 w 0)) (nth 15 w 0)) in
      schedule n' (wt :: w)
  end.

Record state : Type := mkState { a : Z; b : Z; c : Z; d : Z; e : Z; f : Z; g : Z; h : Z }.

Definition round (s : state) (kw : Z * Z) : state :=
  let t1 := add32 (add32 (add32 (h s) (Sigma1 (e s))) (Ch (e s) (f s) (g s)))
                  (add32 (fst kw) (snd kw)) in
  let t2 := add32 (Sigma0 (a s)) (Maj (a s) (b s) (c s)) in
  mkState (add32 t1 t2) (a s) (b s) (c s) (add32 (d s) t1) (e s) (f s) (g s).

Definition state_of (hs : list Z) : state :=
  mkState (nth 0 hs 0) (nth 1 hs 0) (nth 2 hs 0) (nth 3 hs 0)
          (nth 4 hs 0) (nth 5 hs 0) (nth 6 hs 0) (nth 7 hs 0).

Definition of_state (s : state) : list Z :=
  [a s; b s; c s; d s; e s; f s; g s; h s].

(** One 512-bit block, given as its sixteen words. *)
Definition compress (hs : list Z) (block : list Z) : list Z :=
  let w := rev (schedule 48 (rev block)) in
  let s := fold_left round (combine K w) (state_of hs) in
  map (fun p => add32 (fst p) (snd p)) (combine hs (of_state s)).

Fixpoint blocks (n : nat) (ws : list Z) (hs : list Z) : list Z :=
  match n with
  | O => hs
  | S n' => blocks n' (skipn 16 ws) (compress hs (firstn 16 ws))
  end.

(** The digest, as its eight 32-bit words. *)
Definition sha256 (msg : list Z) : list Z :=
  let ws := words (pad msg) in
  blocks (Nat.div (List.length ws) 16) ws H0.

Definition hex_digit (x : Z) : ascii :=
  ascii_of_nat (Z.to_nat (if x <? 10 then 48 + x else 87 + x)).

Fixpoint hex (n : nat) (x : Z) : string :=
  match n with
  | O => EmptyString
  | S n' => String (hex_digit (Z.land (Z.shiftr x (4 * Z.of_nat n')) 0xf)) (hex n' x)
  end.

Definition hexdigest (digest : list Z) : string :=
  fold_right (fun w s => hex 8 w ++ s)%string EmptyString digest.
End hashlib.

(** [str.encode()]: the bytes of the string. *)
Fixpoint encode (data : string) : list Z :=
  match data with
  | EmptyString => []
  | String ch rest => Z.of_nat (nat_of_ascii ch) :: encode rest
  end.

(** [def hash(data): return hashlib.sha256(data.encode()).hexdigest()] *)
Definition hash (data : string) : string :=
  hashlib.hexdigest (hashlib.sha256 (encode data)).

(** ** Exceptions *)

Inductive exn : Type :=
| IndexError       (* list index out of range *)
| RecursionError.  (* maximum recursion depth exceeded *)

Inductive result (A : Type) : Type :=
| Ok (v : A)
| Raise (e : exn).

Arguments Ok {A} v.
Arguments Raise {A} e.

Definition bind {A B : Type} (m : result A) (k : A -> result B) : result B :=
  match m with
  | Ok v => k v
  | Raise e => Raise e
  end.

Notation "x <- m ;; k" := (bind m (fun x => k))
  (at level 61, m at next level, right associativity).

(** [l[i]] on a Python list: a negative index counts from the end. *)
Definition subscript {A : Type} (l : list A) (i : Z) : result A :=
  let n := Z.of_nat (List.length l) in
  let j := if (i <? 0)%Z then (i + n)%Z else i in
  if ((0 <=? j) && (j <? n))%Z then
    match nth_error l (Z.to_nat j) with
    | Some v => Ok v
    | None => Raise IndexError
    end
  else Raise IndexError.

(** The truth value of an [int]: zero is false. *)
Definition truthy (x : Z) : bool := negb (x =? 0)%Z.

(** ** class MerkleTree *)

(** The two attributes of an instance: [self.leaves] and [self.tree]. *)
Record MerkleTree : Type := mkMerkleTree {
  leaves : list string;
  tree : list (list string)
}.

(** The [for i in range(0, len(current_level), 2)] loop of [build_tree]:
    [left = current_level[i]], [right = current_level[i + 1]] when that
    index exists and [left] otherwise, and [hash(left + right)] appended to
    [next_level] ([left_] and [right_] below: [left] and [right] are
    constructors here). *)
Fixpoint next_level (current_level : list string) : list string :=
  match current_level with
  | [] => []
  | [left_] => [hash (left_ ++ left_)]
  | left_ :: right_ :: rest => hash (left_ ++ right_) :: next_level rest
  end.

(** [build_tree(self, current_level)], threading [self.tree].  [limit] is
    the number of nested calls the interpreter still allows; a call beyond
    it raises [RecursionError]. *)
Fixpoint build_tree (limit : nat) (tree : list (list string))
    (current_level : list string) : result (list (list string)) :=
  match limit with
  | O => Raise RecursionError
  | S limit' =>
      if (List.length current_level =? 1)%nat then Ok tree
      else
        let next := next_level current_level in
        build_tree limit' (tree ++ [next]) next
  end.

(** [MerkleTree(leaves)], that is [__init__]. *)
Definition init (limit : nat) (leaves : list string) : result MerkleTree :=
  let leaves := map hash leaves in
  tree <- build_tree limit [leaves] leaves ;;
  Ok (mkMerkleTree leaves tree).

(** [get_root]: [self.tree[-1][0]]. *)
Definition get_root (self : MerkleTree) : result string :=
  top <- subscript (tree self) (-1) ;;
  subscript top 0.

(** The body of the [for level in range(len(self.tree) - 1)] loop of
    [get_proof], over the levels still to visit, with the loop's two
    variables [proof] and [current_index]. *)
Fixpoint get_proof_loop (levels : list (list string))
    (proof : list (string * string)) (current_index : Z)
    : result (list (string * string)) :=
  match levels with
  | [] => Ok proof
  | current_level :: levels' =>
      let is_right := (current_index mod 2)%Z in
      let sibling_index :=
        if truthy is_right then (current_index - 1)%Z
        else (current_index + 1)%Z in
      proof' <-
        (if (sibling_index <? Z.of_nat (List.length current_level))%Z then
           let position := if truthy is_right then "left" else "right" in
           sibling <- subscript current_level sibling_index ;;
           Ok (proof ++ [(position, sibling)])
         else Ok proof) ;;
      get_proof_loop levels' proof' (current_index / 2)%Z
  end.

(** [get_proof(self, leaf_index)]: every level but the last is visited. *)
Definition get_proof (self : MerkleTree) (leaf_index : Z)
    : result (list (string * string)) :=
  get_proof_loop (firstn (List.length (tree self) - 1) (tree self)) [] leaf_index.

(** The [for position, sibling_hash in proof] loop of [verify_proof]. *)
Fixpoint verify_proof_loop (current_hash : string)
    (proof : list (string * string)) : string :=
  match proof with
  | [] => current_hash
  | (position, sibling_hash) :: proof' =>
      let combined :=
        (if position =? "left" then sibling_hash ++ current_hash
         else current_hash ++ sibling_hash)%string in
      verify_proof_loop (hash combined) proof'
  end.

(** [verify_proof(self, leaf, proof)]. *)
Definition verify_proof (self : MerkleTree) (leaf : string)
    (proof : list (string * string)) : result bool :=
  let current_hash := verify_proof_loop (hash leaf) proof in
  root <- get_root self ;;
  Ok (current_hash =? root)%string.

(** The interpreter's default recursion limit ([sys.getrecursionlimit()]);
    the trees written out below need three nested calls at most. *)
Definition default_limit : nat := 1000.

(** ** Predicates and specification-side definitions *)

(** [levels_from current ls]: [ls] is the list of the levels that
    [build_tree] appends above [current]. *)
Fixpoint levels_from (current : list string) (ls : list (list string)) : Prop :=
  match ls with
  | [] => List.length current = 1%nat
  | l :: ls' =>
      List.length current <> 1%nat /\ l = next_level current /\ levels_from l ls'
  end.

(** [paired current ls i]: on the way up from position [i] of [current],
    through the levels [ls] above it, no node is the unpaired last node of a
    level of odd length. *)
Fixpoint paired (current : list string) (ls : list (list string)) (i : nat)
    : Prop :=
  match ls with
  | [] => True
  | l :: ls' =>
      (i mod 2 = 0 -> i + 1 < List.length current)%nat /\ paired l ls' (i / 2)
  end.

(** The recomputation as the specification words it: start from the
    digest of the leaf and fold over the proof in order, the sibling going
    to the left when the side is "left" and to the right otherwise. *)
Definition recompute (leaf : string) (proof : list (string * string)) : string :=
  fold_left
    (fun current entry =>
       if (fst entry =? "left")%string then hash (snd entry ++ current)
       else hash (current ++ snd entry))
    proof (hash leaf).


(** The characters [hexdigest()] is made of. *)
Definition lower_hex (ch : ascii) : bool :=
  existsb (Ascii.eqb ch) (list_ascii_of_string "0123456789abcdef").

Fixpoint all_chars (f : ascii -> bool) (s : string) : bool :=
  match s with
  | EmptyString => true
  | String ch rest => f ch && all_chars f rest
  end.

(** A position as [verify_proof] reads it: "left", or anything else. *)
Definition read_position (position : string) : string :=
  if (position =? "left")%string then "left" else "right".

(** * Properties *)

(** The first and the last round constant and the first word of the
    initial hash value, as FIPS 180-4 lists them. *)
Example constants_check :
  nth 0 hashlib.K 0%Z = 0x428a2f98%Z
  /\ nth 63 hashlib.K 0%Z = 0xc67178f2%Z
  /\ List.length hashlib.K = 64%nat
  /\ nth 0 hashlib.H0 0%Z = 0x6a09e667%Z
  /\ List.length hashlib.H0 = 8%nat.
Proof. repeat split. Qed.

(** The digests printed by the notebook's own run, and the FIPS test
    vector for "abc". *)
Example hash_A :
  hash "A" = "559aead08264d5795d3909718cdd05abd49572e84fe55590eef31a88a08fdffd".
Proof. vm_compute. reflexivity. Qed.

Example hash_abc :
  hash "abc" = "ba7816bf8f01cfea414140de5dae2223b00361a396177a9cb410ff61f20015ad".
Proof. vm_compute. reflexivity. Qed.

Example hash_CD :
  hash (hash "C" ++ hash "D")
  = "26b5aabe804fe5d533c663dea833e8078188376ce5ca2b5c3371d09ef6b0657b".
Proof. vm_compute. reflexivity. Qed.

Example notebook_run :
  exists t, init default_limit ["A"; "B"; "C"; "D"] = Ok t
    /\ get_proof t 1
       = Ok [("left", "559aead08264d5795d3909718cdd05abd49572e84fe55590eef31a88a08fdffd");
             ("right", "26b5aabe804fe5d533c663dea833e8078188376ce5ca2b5c3371d09ef6b0657b")]
    /\ (p <- get_proof t 1 ;; verify_proof t "B" p) = Ok true.
Proof. eexists. split; [vm_compute; reflexivity|]. split; vm_compute; reflexivity. Qed.

(** ** Shape of the tree *)

(** The proofs below never look inside [hash]. *)
Local Opaque hash.

Lemma bind_Ok {A B : Type} (m : result A) (k : A -> result B) (v : B) :
  bind m k = Ok v -> exists u, m = Ok u /\ k u = Ok v.
Proof. destruct m as [u|e]; simpl; intros H; [eauto | discriminate]. Qed.

(** Induction on lists two elements at a time, as [next_level] recurses. *)
Lemma list_ind2 {A : Type} (P : list A -> Prop) :
  P [] -> (forall x, P [x]) -> (forall x y l, P l -> P (x :: y :: l)) ->
  forall l, P l.
Proof.
  intros Hnil Hone Hstep.
  enough (H : forall l, P l /\ forall x, P (x :: l)) by (intro l; apply H).
  induction l as [|y l [IH1 IH2]]; split; auto.
Qed.

Lemma length_next_level (l : list string) :
  List.length (next_level l) = ((List.length l + 1) / 2)%nat.
Proof.
  induction l as [| x | x y l IH] using list_ind2; try reflexivity.
  cbn [next_level List.length]. rewrite IH.
  replace (S (S (List.length l)) + 1)%nat with ((List.length l + 1) + 1 * 2)%nat by lia.
  rewrite Nat.div_add by lia. lia.
Qed.

(** [(n + 1) / 2] is the ceiling of [n / 2]. *)
Lemma half_up_bounds (n : nat) :
  (2 * ((n + 1) / 2) <= n + 1 < 2 * ((n + 1) / 2) + 2)%nat.
Proof.
  pose proof (Nat.div_mod_eq (n + 1) 2) as E.
  pose proof (Nat.mod_upper_bound (n + 1) 2 ltac:(lia)). lia.
Qed.

Lemma log2_up_half (n : nat) :
  (2 <= n)%nat -> Nat.log2_up n = S (Nat.log2_up ((n + 1) / 2)).
Proof.
  intros Hn.
  pose proof (half_up_bounds n) as Hdiv.
  remember ((n + 1) / 2)%nat as m eqn:Em.
  destruct (Nat.eq_dec m 1) as [->|Hm].
  - assert (n = 2)%nat by lia. subst n. reflexivity.
  - assert (Hm1 : (1 < m)%nat) by lia.
    pose proof (Nat.log2_up_spec m Hm1) as [Hlo Hhi].
    pose proof (Nat.log2_up_pos m Hm1) as Hpos.
    apply Nat.log2_up_unique; [lia|].
    cbn [pred].
    destruct (Nat.log2_up m) as [|k]; [lia|].
    cbn [pred] in Hlo. rewrite !Nat.pow_succ_r' in *. lia.
Qed.

Lemma build_tree_app (limit : nat) :
  forall tree current,
    build_tree limit tree current
    = (ls <- build_tree limit [] current ;; Ok (tree ++ ls)).
Proof.
  induction limit as [|limit IH]; intros tree0 current; [reflexivity|].
  cbn [build_tree].
  destruct (List.length current =? 1)%nat.
  - cbn. now rewrite app_nil_r.
  - rewrite IH. rewrite (IH ([] ++ _)).
    destruct (build_tree limit [] (next_level current)) as [ls|e]; cbn; [|reflexivity].
    now rewrite <- app_assoc.
Qed.

Lemma build_tree_levels (limit : nat) :
  forall current ls,
    build_tree limit [] current = Ok ls -> levels_from current ls.
Proof.
  induction limit as [|limit IH]; intros current ls; [discriminate|].
  cbn [build_tree].
  destruct (List.length current =? 1)%nat eqn:E.
  - intros [= <-]. now apply Nat.eqb_eq.
  - rewrite build_tree_app. intros H.
    apply bind_Ok in H as (ls' & Hb & [= <-]).
    cbn. apply Nat.eqb_neq in E. auto.
Qed.

Lemma build_tree_returns (limit : nat) :
  forall current,
    current <> [] -> (Nat.log2_up (List.length current) < limit)%nat ->
    exists ls, build_tree limit [] current = Ok ls.
Proof.
  induction limit as [|limit IH]; intros current Hne Hlim; [lia|].
  cbn [build_tree].
  destruct (List.length current =? 1)%nat eqn:E; [eauto|].
  apply Nat.eqb_neq in E.
  assert (Hlen : (2 <= List.length current)%nat).
  { destruct current as [|x [|y l]]; cbn in *; try congruence; lia. }
  rewrite build_tree_app.
  destruct (IH (next_level current)) as [ls Hls].
  - intros Hnil. apply (f_equal (@List.length _)) in Hnil.
    rewrite length_next_level in Hnil. cbn [List.length] in Hnil.
    pose proof (half_up_bounds (List.length current)). lia.
  - rewrite length_next_level. rewrite (log2_up_half _ Hlen) in Hlim. lia.
  - rewrite Hls. cbn. eauto.
Qed.

Lemma levels_from_length (ls : list (list string)) :
  forall current,
    current <> [] -> levels_from current ls ->
    List.length ls = Nat.log2_up (List.length current).
Proof.
  induction ls as [|l ls IH]; intros current Hne; cbn.
  - intros ->. reflexivity.
  - intros (Hlen & -> & Hls).
    assert (H2 : (2 <= List.length current)%nat).
    { destruct current as [|x [|y c]]; cbn in *; try congruence; lia. }
    rewrite (log2_up_half _ H2), <- length_next_level. f_equal.
    apply IH; [|assumption].
    destruct current as [|x [|y c]]; cbn in *; try congruence; lia.
Qed.

Lemma levels_from_adjacent (ls : list (list string)) :
  forall current k lo hi,
    levels_from current ls ->
    nth_error (current :: ls) k = Some lo ->
    nth_error (current :: ls) (S k) = Some hi ->
    hi = next_level lo /\ List.length lo <> 1%nat.
Proof.
  induction ls as [|l ls IH]; intros current k lo hi Hls Hlo Hhi.
  - destruct k; discriminate.
  - destruct Hls as (Hlen & -> & Hls).
    destruct k as [|k].
    + cbn in Hlo, Hhi. injection Hlo as <-. injection Hhi as <-. auto.
    + apply (IH (next_level current) k); assumption.
Qed.

Lemma levels_from_last (ls : list (list string)) :
  forall current,
    levels_from current ls -> List.length (last (current :: ls) []) = 1%nat.
Proof.
  induction ls as [|l ls IH]; intros current Hls.
  - exact Hls.
  - destruct Hls as (_ & _ & Hls). apply IH in Hls. exact Hls.
Qed.

(** What [__init__] returns on a non-empty list, once the recursion limit
    allows the [ceil(log2 n) + 1] nested calls of [build_tree]. *)
Lemma init_returns (limit : nat) (leaves0 : list string) :
  leaves0 <> [] -> (Nat.log2_up (List.length leaves0) < limit)%nat ->
  exists ls,
    init limit leaves0
    = Ok (mkMerkleTree (map hash leaves0) (map hash leaves0 :: ls))
    /\ levels_from (map hash leaves0) ls.
Proof.
  intros Hne Hlim. unfold init.
  destruct (build_tree_returns limit (map hash leaves0)) as [ls Hls].
  - destruct leaves0; [congruence | discriminate].
  - now rewrite length_map.
  - exists ls. rewrite build_tree_app, Hls. cbn. split; [reflexivity|].
    eapply build_tree_levels; eassumption.
Qed.

(** C5.  For a tree built from a non-empty list of leaves (the recursion
    limit allowing the construction): level 0 is the list of leaf digests;
    each level above has [ceil(len / 2)] digests, where [len] is the length
    of the level below it; a level below another one never has exactly one
    digest and the topmost level has exactly one, so the construction stops
    exactly at a level of one digest; and there are [ceil(log2 n)] levels
    above level 0 ([Nat.log2_up 1 = 0]). *)
Theorem build_tree_shape (limit : nat) (leaves0 : list string) :
  leaves0 <> [] -> (Nat.log2_up (List.length leaves0) < limit)%nat ->
  exists t,
    init limit leaves0 = Ok t
    /\ nth_error (tree t) 0 = Some (map hash leaves0)
    /\ (forall k lo hi,
          nth_error (tree t) k = Some lo ->
          nth_error (tree t) (S k) = Some hi ->
          List.length hi = ((List.length lo + 1) / 2)%nat
          /\ (2 * List.length hi = List.length lo
              \/ 2 * List.length hi = List.length lo + 1)%nat
          /\ List.length lo <> 1%nat)
    /\ (exists root, last (tree t) [] = [root])
    /\ List.length (tree t) = S (Nat.log2_up (List.length leaves0)).
Proof.
  intros Hne Hlim.
  destruct (init_returns limit leaves0 Hne Hlim) as (ls & Hinit & Hls).
  eexists. split; [exact Hinit|]. cbn [tree].
  split; [reflexivity|]. split; [|split].
  - intros k lo hi Hlo Hhi.
    destruct (levels_from_adjacent ls _ k lo hi Hls Hlo Hhi) as [-> Hlen].
    rewrite length_next_level.
    pose proof (half_up_bounds (List.length lo)). repeat split; try lia.
  - pose proof (levels_from_last ls _ Hls) as Hlast.
    destruct (last (map hash leaves0 :: ls) []) as [|root [|y l]];
      try discriminate. now exists root.
  - cbn [List.length]. f_equal.
    rewrite (levels_from_length ls (map hash leaves0)), length_map; auto.
    destruct leaves0; [congruence | discriminate].
Qed.

Lemma build_tree_shape_witness :
  ["A"; "B"; "C"] <> []
  /\ (Nat.log2_up (List.length ["A"; "B"; "C"]) < default_limit)%nat
  /\ exists t,
    init default_limit ["A"; "B"; "C"] = Ok t
    /\ nth_error (tree t) 0 = Some (map hash ["A"; "B"; "C"])
    /\ (forall k lo hi,
          nth_error (tree t) k = Some lo ->
          nth_error (tree t) (S k) = Some hi ->
          List.length hi = ((List.length lo + 1) / 2)%nat
          /\ (2 * List.length hi = List.length lo
              \/ 2 * List.length hi = List.length lo + 1)%nat
          /\ List.length lo <> 1%nat)
    /\ (exists root, last (tree t) [] = [root])
    /\ List.length (tree t) = S (Nat.log2_up (List.length ["A"; "B"; "C"])).
Proof.
  assert (Hne : ["A"; "B"; "C"] <> []) by discriminate.
  assert (Hlim : (Nat.log2_up (List.length ["A"; "B"; "C"]) < default_limit)%nat)
    by (vm_compute; lia).
  split; [exact Hne|]. split; [exact Hlim|].
  exact (build_tree_shape default_limit ["A"; "B"; "C"] Hne Hlim).
Defined.

(** ** Subscripts and the root *)

Lemma subscript_nat {A : Type} (l : list A) (n : nat) (d : A) :
  (n < List.length l)%nat -> subscript l (Z.of_nat n) = Ok (nth n l d).
Proof.
  intros Hn. unfold subscript.
  destruct (Z.ltb_spec (Z.of_nat n) 0) as [Hneg|_]; [lia|].
  destruct (Z.leb_spec 0 (Z.of_nat n)) as [_|Hneg]; [|lia].
  destruct (Z.ltb_spec (Z.of_nat n) (Z.of_nat (List.length l))) as [_|Hge]; [|lia].
  cbn [andb]. rewrite Nat2Z.id.
  now rewrite (nth_error_nth' l d Hn).
Qed.

Lemma nth_pred_length {A : Type} (l : list A) (d : A) :
  nth (List.length l - 1) l d = last l d.
Proof.
  induction l as [|x [|y l] IH]; try reflexivity.
  cbn [List.length last] in *. rewrite <- IH.
  replace (S (S (List.length l)) - 1)%nat with (S (S (List.length l) - 1)) by lia.
  reflexivity.
Qed.

Lemma subscript_last {A : Type} (l : list A) (d : A) :
  l <> [] -> subscript l (-1) = Ok (last l d).
Proof.
  intros Hne. unfold subscript.
  assert (Hlen : (0 < List.length l)%nat) by (destruct l; [congruence | cbn; lia]).
  change (-1 <? 0)%Z with true. cbv iota.
  destruct (Z.leb_spec 0 (-1 + Z.of_nat (List.length l))) as [_|Hneg]; [|lia].
  destruct (Z.ltb_spec (-1 + Z.of_nat (List.length l)) (Z.of_nat (List.length l)))
    as [_|Hge]; [|lia].
  cbn [andb].
  replace (Z.to_nat (-1 + Z.of_nat (List.length l))) with (List.length l - 1)%nat by lia.
  rewrite (nth_error_nth' l d) by lia. now rewrite nth_pred_length.
Qed.

Lemma get_root_levels (ls : list (list string)) (leaves0 current : list string) :
  levels_from current ls ->
  exists root,
    last (current :: ls) [] = [root]
    /\ get_root (mkMerkleTree leaves0 (current :: ls)) = Ok root.
Proof.
  intros Hls. pose proof (levels_from_last ls current Hls) as Hlast.
  unfold get_root. cbn [tree].
  rewrite (subscript_last (current :: ls) []) by discriminate.
  destruct (last (current :: ls) []) as [|root [|y l]]; try discriminate.
  exists root. split; reflexivity.
Qed.

Lemma init_inv (limit : nat) (leaves0 : list string) (t : MerkleTree) :
  init limit leaves0 = Ok t ->
  exists ls,
    t = mkMerkleTree (map hash leaves0) (map hash leaves0 :: ls)
    /\ levels_from (map hash leaves0) ls.
Proof.
  unfold init. rewrite build_tree_app. intros H.
  apply bind_Ok in H as (tr & H & [= <-]).
  apply bind_Ok in H as (ls & Hls & [= <-]).
  exists ls. split; [reflexivity|]. eapply build_tree_levels; eassumption.
Qed.

(** ** Verification *)

Lemma verify_proof_loop_fold (proof : list (string * string)) :
  forall current,
    verify_proof_loop current proof
    = fold_left
        (fun current entry =>
           if (fst entry =? "left")%string then hash (snd entry ++ current)
           else hash (current ++ snd entry))
        proof current.
Proof.
  induction proof as [|[position sibling] proof IH]; intros current;
    [reflexivity|].
  cbn [verify_proof_loop fold_left fst snd]. rewrite IH.
  now destruct (position =? "left")%string.
Qed.

(** C4.  On a tree built by the constructor, [get_root] returns a digest
    [root], and for every leaf value and every proof [verify_proof] returns
    the boolean that tells whether the digest recomputed by the fold equals
    [root]: true if and only if they are equal. *)
Theorem verify_proof_recomputes (limit : nat) (leaves0 : list string)
    (t : MerkleTree) :
  init limit leaves0 = Ok t ->
  exists root,
    get_root t = Ok root
    /\ forall leaf proof,
        verify_proof t leaf proof = Ok (recompute leaf proof =? root)%string
        /\ (verify_proof t leaf proof = Ok true <-> recompute leaf proof = root).
Proof.
  intros Hinit. apply init_inv in Hinit as (ls & -> & Hls).
  destruct (get_root_levels ls (map hash leaves0) _ Hls) as (root & _ & Hroot).
  exists root. split; [exact Hroot|]. intros leaf proof.
  assert (E : verify_proof (mkMerkleTree (map hash leaves0) (map hash leaves0 :: ls))
                leaf proof
              = Ok (recompute leaf proof =? root)%string).
  { unfold verify_proof. rewrite Hroot. cbn [bind].
    unfold recompute. now rewrite verify_proof_loop_fold. }
  split; [exact E|]. rewrite E. split.
  - intros [= H]. now apply String.eqb_eq.
  - intros ->. now rewrite String.eqb_refl.
Qed.

Lemma verify_proof_recomputes_witness :
  exists t,
    init default_limit ["A"; "B"; "C"; "D"] = Ok t
    /\ exists root,
        get_root t = Ok root
        /\ forall leaf proof,
            verify_proof t leaf proof = Ok (recompute leaf proof =? root)%string
            /\ (verify_proof t leaf proof = Ok true <-> recompute leaf proof = root).
Proof.
  eexists. split; [vm_compute; reflexivity|].
  apply (verify_proof_recomputes default_limit ["A"; "B"; "C"; "D"]).
  vm_compute. reflexivity.
Defined.

(** ** Empty and single-leaf inputs *)

Lemma build_tree_empty (limit : nat) :
  forall tree, build_tree limit tree [] = Raise RecursionError.
Proof.
  induction limit as [|limit IH]; intros tree0; [reflexivity|].
  cbn [build_tree List.length Nat.eqb next_level]. apply IH.
Qed.

(** C7.  The constructor on an empty list of leaves: [build_tree] is
    called on an empty level, which is not of length one, appends an empty
    next level and calls itself on it, again and again; whatever the
    recursion limit, the construction ends in [RecursionError] and no tree
    is returned. *)
Theorem init_empty_recursion (limit : nat) :
  init limit [] = Raise RecursionError.
Proof. unfold init. cbn [map]. now rewrite build_tree_empty. Qed.

(** C9.  A tree over exactly one leaf: the only level is the leaf's digest,
    which is the root; the proof of index 0 is empty; and the leaf verifies
    with the empty proof. *)
Theorem single_leaf (limit : nat) (leaf : string) :
  exists t,
    init (S limit) [leaf] = Ok t
    /\ tree t = [[hash leaf]]
    /\ get_root t = Ok (hash leaf)
    /\ get_proof t 0 = Ok []
    /\ verify_proof t leaf [] = Ok true.
Proof.
  eexists. split; [reflexivity|]. cbn [tree].
  repeat split; try reflexivity.
  unfold verify_proof. cbn. now rewrite String.eqb_refl.
Qed.

(** ** The duplicated last node *)

Lemma last_map {A B : Type} (f : A -> B) (l : list A) (d : A) :
  last (map f l) (f d) = f (last l d).
Proof. induction l as [|x [|y l] IH]; try reflexivity. exact IH. Qed.

Lemma next_level_duplicate_last (l : list string) (d : string) :
  Nat.odd (List.length l) = true ->
  next_level (l ++ [last l d]) = next_level l.
Proof.
  induction l as [| x | x y l IH] using list_ind2; intros Hodd.
  - discriminate.
  - reflexivity.
  - change (Nat.odd (List.length l) = true) in Hodd.
    destruct l as [|z l]; [discriminate|].
    change (last (x :: y :: z :: l) d) with (last (z :: l) d).
    change ((x :: y :: z :: l) ++ [last (z :: l) d])
      with (x :: y :: ((z :: l) ++ [last (z :: l) d])).
    cbn [next_level]. f_equal. exact (IH Hodd).
Qed.

(** One call of [build_tree] on a level of at least two digests. *)
Lemma build_tree_step (limit : nat) (tree0 : list (list string))
    (current : list string) :
  (2 <= List.length current)%nat ->
  build_tree (S limit) tree0 current
  = (ls <- build_tree limit [] (next_level current) ;;
     Ok (tree0 ++ next_level current :: ls)).
Proof.
  intros Hlen. cbn [build_tree].
  destruct (Nat.eqb_spec (List.length current) 1) as [E|_]; [lia|].
  rewrite build_tree_app.
  destruct (build_tree limit [] (next_level current)); cbn; [|reflexivity].
  now rewrite <- app_assoc.
Qed.

(** C10.  For a list of leaves of odd length at least three, the tree
    over the list and the tree over the list with its last leaf appended
    once more are both built and have the same root, although the second
    one has one leaf more. *)
Theorem duplicate_last_same_root (limit : nat) (leaves0 : list string) :
  Nat.odd (List.length leaves0) = true ->
  (3 <= List.length leaves0)%nat ->
  (Nat.log2_up (List.length leaves0) < limit)%nat ->
  exists t t' root,
    init limit leaves0 = Ok t
    /\ init limit (leaves0 ++ [last leaves0 ""]) = Ok t'
    /\ get_root t = Ok root
    /\ get_root t' = Ok root
    /\ List.length (leaves t') = S (List.length (leaves t)).
Proof.
  intros Hodd Hlen Hlim.
  assert (Hne : leaves0 <> []) by (destruct leaves0; [cbn in Hlen; lia | discriminate]).
  destruct limit as [|limit]; [lia|].
  destruct (init_returns (S limit) leaves0 Hne Hlim) as (ls & Hinit & Hls).
  assert (Hnext : next_level (map hash (leaves0 ++ [last leaves0 ""]))
                  = next_level (map hash leaves0)).
  { rewrite map_app. cbn [map]. rewrite <- (last_map hash).
    apply next_level_duplicate_last. now rewrite length_map. }
  unfold init in Hinit.
  rewrite build_tree_step in Hinit by (rewrite length_map; lia).
  apply bind_Ok in Hinit as (tr & Hb & [= Htr]).
  apply bind_Ok in Hb as (ls' & Hb & [= <-]).
  cbn [app] in Htr. injection Htr as <-.
  destruct Hls as (_ & _ & Hls).
  destruct (get_root_levels ls' (map hash leaves0) _ Hls) as (root & Hlast & _).
  exists (mkMerkleTree (map hash leaves0)
            (map hash leaves0 :: next_level (map hash leaves0) :: ls')).
  exists (mkMerkleTree (map hash (leaves0 ++ [last leaves0 ""]))
            (map hash (leaves0 ++ [last leaves0 ""])
               :: next_level (map hash leaves0) :: ls')).
  exists root. repeat split.
  - unfold init. rewrite build_tree_step by (rewrite length_map; lia).
    rewrite Hb. reflexivity.
  - unfold init. rewrite build_tree_step
      by (rewrite length_map, length_app; cbn; lia).
    rewrite Hnext, Hb. reflexivity.
  - unfold get_root. cbn [tree].
    rewrite (subscript_last _ []) by discriminate.
    change (last (?a :: ?b :: ?l) []) with (last (b :: l) []).
    rewrite Hlast. reflexivity.
  - unfold get_root. cbn [tree].
    rewrite (subscript_last _ []) by discriminate.
    change (last (?a :: ?b :: ?l) []) with (last (b :: l) []).
    rewrite Hlast. reflexivity.
  - cbn [leaves]. rewrite !length_map, length_app. cbn. lia.
Qed.

Lemma duplicate_last_same_root_witness :
  exists t t' root,
    init default_limit ["A"; "B"; "C"] = Ok t
    /\ init default_limit (["A"; "B"; "C"] ++ [last ["A"; "B"; "C"] ""]) = Ok t'
    /\ get_root t = Ok root
    /\ get_root t' = Ok root
    /\ List.length (leaves t') = S (List.length (leaves t)).
Proof.
  apply (duplicate_last_same_root default_limit ["A"; "B"; "C"]).
  - reflexivity.
  - cbn. lia.
  - vm_compute. lia.
Defined.

(** ** Proofs along a path on which every node has a sibling *)

Lemma levels_from_nonempty (ls : list (list string)) :
  forall current, levels_from current ls -> current <> [].
Proof.
  induction ls as [|l ls IH]; intros current Hls ->.
  - discriminate.
  - destruct Hls as (_ & -> & Hls). now apply (IH _ Hls).
Qed.

Lemma nth_next_level (current : list string) :
  forall j,
    (2 * j + 1 < List.length current)%nat ->
    nth j (next_level current) ""
    = hash (nth (2 * j) current "" ++ nth (2 * j + 1) current "").
Proof.
  induction current as [| x | x y l IH] using list_ind2; intros j Hj.
  - cbn in Hj. lia.
  - cbn in Hj. lia.
  - destruct j as [|j]; [reflexivity|].
    cbn [next_level nth].
    replace (2 * S j)%nat with (S (S (2 * j))) by lia.
    cbn [Nat.add nth]. apply IH. cbn [List.length] in Hj. lia.
Qed.

Lemma get_proof_loop_paired (ls : list (list string)) :
  forall current acc i,
    levels_from current ls ->
    (i < List.length current)%nat ->
    paired current ls i ->
    exists p,
      get_proof_loop (firstn (List.length ls) (current :: ls)) acc (Z.of_nat i)
      = Ok (acc ++ p)
      /\ List.length p = List.length ls
      /\ verify_proof_loop (nth i current "") p
         = nth 0 (last (current :: ls) []) "".
Proof.
  induction ls as [|l ls IH]; intros current acc i Hls Hi Hp.
  - exists []. cbn. rewrite app_nil_r. repeat split.
    destruct current as [|x [|y c]]; try discriminate.
    destruct i; [reflexivity | cbn in Hi; lia].
  - destruct Hls as (Hlen & -> & Hls). destruct Hp as [Hsib Hp].
    pose proof (Nat.div_mod_eq i 2) as Hdm.
    pose proof (Nat.mod_upper_bound i 2 ltac:(lia)) as Hmod.
    pose proof (half_up_bounds (List.length current)) as Hhalf.
    assert (Hi2 : (i / 2 < List.length (next_level current))%nat)
      by (rewrite length_next_level; lia).
    change (firstn (List.length (next_level current :: ls))
              (current :: next_level current :: ls))
      with (current :: firstn (List.length ls) (next_level current :: ls)).
    cbn [get_proof_loop].
    replace (Z.of_nat i mod 2)%Z with (Z.of_nat (i mod 2))
      by (rewrite Nat2Z.inj_mod; reflexivity).
    replace (Z.of_nat i / 2)%Z with (Z.of_nat (i / 2))
      by (rewrite Nat2Z.inj_div; reflexivity).
    destruct (i mod 2)%nat as [|[|r]] eqn:Er; [| |lia].
    + (* even position: the sibling is on the right *)
      specialize (Hsib eq_refl).
      change (truthy (Z.of_nat 0)) with false. cbv iota.
      replace (Z.of_nat i + 1)%Z with (Z.of_nat (i + 1)) by lia.
      destruct (Z.ltb_spec (Z.of_nat (i + 1)) (Z.of_nat (List.length current)))
        as [_|Hge]; [|lia].
      rewrite (subscript_nat current (i + 1) "" Hsib). cbn [bind].
      destruct (IH (next_level current)
                  (acc ++ [("right", nth (i + 1) current "")]) (i / 2)%nat
                  Hls Hi2 Hp) as (p & Hloop & Hlenp & Hver).
      exists (("right", nth (i + 1) current "") :: p).
      rewrite Hloop, <- app_assoc. repeat split.
      * cbn [List.length]. now rewrite Hlenp.
      * cbn [verify_proof_loop]. change ("right" =? "left")%string with false.
        cbv iota. change (last (current :: ?a :: ?b) []) with (last (a :: b) []).
        rewrite <- Hver. f_equal.
        rewrite nth_next_level by lia.
        replace (2 * (i / 2))%nat with i by lia. reflexivity.
    + (* odd position: the sibling is on the left *)
      change (truthy (Z.of_nat 1)) with true. cbv iota.
      replace (Z.of_nat i - 1)%Z with (Z.of_nat (i - 1)) by lia.
      destruct (Z.ltb_spec (Z.of_nat (i - 1)) (Z.of_nat (List.length current)))
        as [_|Hge]; [|lia].
      rewrite (subscript_nat current (i - 1) "") by lia. cbn [bind].
      destruct (IH (next_level current)
                  (acc ++ [("left", nth (i - 1) current "")]) (i / 2)%nat
                  Hls Hi2 Hp) as (p & Hloop & Hlenp & Hver).
      exists (("left", nth (i - 1) current "") :: p).
      rewrite Hloop, <- app_assoc. repeat split.
      * cbn [List.length]. now rewrite Hlenp.
      * cbn [verify_proof_loop]. change ("left" =? "left")%string with true.
        cbv iota. change (last (current :: ?a :: ?b) []) with (last (a :: b) []).
        rewrite <- Hver. f_equal.
        rewrite nth_next_level by lia.
        replace (2 * (i / 2))%nat with (i - 1)%nat by lia.
        replace (i - 1 + 1)%nat with i by lia. reflexivity.
Qed.

(** Round trip along a path without unpaired node, on the tree that
    [__init__] builds: level 0 and the levels [ls] above it. *)
Lemma round_trip_paired (leaves0 : list string) (i : nat)
    (ls : list (list string)) :
  levels_from (map hash leaves0) ls ->
  (i < List.length leaves0)%nat ->
  paired (map hash leaves0) ls i ->
  exists p,
    get_proof (mkMerkleTree (map hash leaves0) (map hash leaves0 :: ls))
      (Z.of_nat i) = Ok p
    /\ List.length p = List.length ls
    /\ verify_proof (mkMerkleTree (map hash leaves0) (map hash leaves0 :: ls))
         (nth i leaves0 "") p = Ok true.
Proof.
  intros Hls Hi Hp.
  destruct (get_proof_loop_paired ls (map hash leaves0) [] i Hls
              ltac:(now rewrite length_map) Hp) as (p & Hloop & Hlen & Hver).
  destruct (get_root_levels ls (map hash leaves0) _ Hls) as (root & Hlast & Hroot).
  exists p. split; [|split; [exact Hlen|]].
  - unfold get_proof. cbn [tree List.length].
    replace (S (List.length ls) - 1)%nat with (List.length ls) by lia.
    exact Hloop.
  - unfold verify_proof. rewrite Hroot. cbn [bind].
    rewrite Hlast in Hver. cbn [nth] in Hver.
    assert (E : hash (nth i leaves0 "") = nth i (map hash leaves0) "").
    { rewrite (nth_indep (map hash leaves0) "" (hash ""))
        by (now rewrite length_map).
      now rewrite map_nth. }
    rewrite E, Hver. now rewrite String.eqb_refl.
Qed.

Lemma paired_first (ls : list (list string)) :
  forall current, levels_from current ls -> paired current ls 0.
Proof.
  induction ls as [|l ls IH]; intros current Hls; [exact I|].
  pose proof (levels_from_nonempty _ _ Hls) as Hne.
  destruct Hls as (Hlen & -> & Hls). split.
  - intros _. destruct current as [|x [|y c]]; cbn in *; try congruence; lia.
  - apply IH, Hls.
Qed.

Lemma paired_power_of_two (ls : list (list string)) :
  forall current i,
    levels_from current ls ->
    List.length current = (2 ^ List.length ls)%nat ->
    (i < List.length current)%nat ->
    paired current ls i.
Proof.
  induction ls as [|l ls IH]; intros current i Hls Hpow Hi; [exact I|].
  destruct Hls as (Hlen & -> & Hls).
  cbn [List.length] in Hpow. rewrite Nat.pow_succ_r' in Hpow.
  pose proof (Nat.div_mod_eq i 2) as Hdm.
  pose proof (Nat.mod_upper_bound i 2 ltac:(lia)) as Hmod.
  pose proof (half_up_bounds (List.length current)) as Hhalf.
  split; [lia|].
  apply IH; [exact Hls | | ]; rewrite length_next_level; lia.
Qed.

(** X4.  Where the number of leaves is a power of two, [2 ^ k], no level
    has an unpaired node: for every index in range [get_proof] returns [k]
    entries and [verify_proof] accepts them for that leaf. *)
Lemma round_trip_power_of_two (limit k : nat) (leaves0 : list string) (i : nat) :
  List.length leaves0 = (2 ^ k)%nat -> (k < limit)%nat ->
  (i < List.length leaves0)%nat ->
  exists t p,
    init limit leaves0 = Ok t
    /\ get_proof t (Z.of_nat i) = Ok p
    /\ List.length p = k
    /\ verify_proof t (nth i leaves0 "") p = Ok true.
Proof.
  intros Hpow Hlim Hi.
  assert (Hne : leaves0 <> []) by (destruct leaves0; [cbn in Hi; lia | discriminate]).
  assert (Hlog : Nat.log2_up (List.length leaves0) = k)
    by (rewrite Hpow; apply Nat.log2_up_pow2; lia).
  destruct (init_returns limit leaves0 Hne ltac:(lia)) as (ls & Hinit & Hls).
  assert (Hk : List.length ls = k).
  { rewrite (levels_from_length ls _ (levels_from_nonempty _ _ Hls) Hls).
    now rewrite length_map. }
  destruct (round_trip_paired leaves0 i ls Hls Hi) as (p & Hp & Hlen & Hv).
  { apply paired_power_of_two; rewrite ?length_map; try assumption. now rewrite Hk. }
  eexists. exists p. split; [exact Hinit|]. split; [exact Hp|].
  split; [lia | exact Hv].
Qed.

(** ** Indices out of range *)

Lemma get_proof_loop_nonneg (levels : list (list string)) :
  forall acc i,
    (0 <= i)%Z ->
    exists p,
      get_proof_loop levels acc i = Ok (acc ++ p)
      /\ (List.length p <= List.length levels)%nat.
Proof.
  induction levels as [|current levels IH]; intros acc i Hi.
  - exists []. cbn. now rewrite app_nil_r.
  - cbn [get_proof_loop].
    assert (Hhalf : (0 <= i / 2)%Z) by (apply Z.div_pos; lia).
    set (sibling_index := if truthy (i mod 2) then (i - 1)%Z else (i + 1)%Z).
    assert (Hsib : (0 <= sibling_index)%Z).
    { unfold sibling_index, truthy.
      destruct (Z.eqb_spec (i mod 2) 0) as [_|Hodd]; cbn [negb]; [lia|].
      destruct (Z.eq_dec i 0) as [->|]; [now elim Hodd | lia]. }
    destruct (Z.ltb_spec sibling_index (Z.of_nat (List.length current)))
      as [Hlt|_].
    + rewrite <- (Z2Nat.id sibling_index Hsib).
      rewrite (subscript_nat current _ "") by lia. cbn [bind].
      destruct (IH (acc ++ [(if truthy (i mod 2) then "left" else "right",
                             nth (Z.to_nat sibling_index) current "")])
                  (i / 2)%Z Hhalf) as (p & Hp & Hlen).
      eexists (_ :: p). rewrite Hp, <- app_assoc. split; [reflexivity|].
      cbn [List.length]. lia.
    + cbn [bind]. destruct (IH acc (i / 2)%Z Hhalf) as (p & Hp & Hlen).
      exists p. split; [exact Hp|]. cbn [List.length]. lia.
Qed.

Lemma subscript_below {A : Type} (l : list A) (i : Z) :
  (i < - Z.of_nat (List.length l))%Z -> subscript l i = Raise IndexError.
Proof.
  intros Hi. unfold subscript.
  destruct (Z.ltb_spec i 0) as [_|Hge]; [|lia].
  destruct (Z.leb_spec 0 (i + Z.of_nat (List.length l))) as [Hle|_]; [lia|].
  reflexivity.
Qed.

(** C8 (as amended).  [get_proof] checks no range.  On a built tree over
    [n] leaves: for every [leaf_index >= n] it returns a proof, of at most
    one entry for each level below the root, and raises nothing; and when
    [n >= 2], for every [leaf_index < -(n + 1)] the subscript of level 0
    raises [IndexError]. *)
Theorem get_proof_out_of_range (limit : nat) (leaves0 : list string)
    (t : MerkleTree) (leaf_index : Z) :
  init limit leaves0 = Ok t ->
  ((Z.of_nat (List.length leaves0) <= leaf_index)%Z ->
   exists proof,
     get_proof t leaf_index = Ok proof
     /\ (List.length proof <= List.length (tree t) - 1)%nat)
  /\ ((2 <= List.length leaves0)%nat ->
      (leaf_index < - Z.of_nat (List.length leaves0) - 1)%Z ->
      get_proof t leaf_index = Raise IndexError).
Proof.
  intros Hinit. split.
  - intros Hidx. unfold get_proof.
    destruct (get_proof_loop_nonneg
                (firstn (List.length (tree t) - 1) (tree t)) [] leaf_index
                ltac:(lia)) as (p & Hp & Hlen).
    exists p. split; [exact Hp|].
    rewrite length_firstn in Hlen. lia.
  - intros Hn Hidx. apply init_inv in Hinit as (ls & -> & Hls).
    destruct ls as [|l ls].
    { cbn in Hls. rewrite length_map in Hls. lia. }
    unfold get_proof. cbn [tree List.length].
    change (firstn (S (S (List.length ls)) - 1) (?a :: ?b :: ls))
      with (a :: firstn (List.length ls) (b :: ls)).
    cbn [get_proof_loop]. rewrite length_map.
    set (sibling_index := if truthy (leaf_index mod 2) then (leaf_index - 1)%Z
                          else (leaf_index + 1)%Z).
    assert (Hsib : (sibling_index < - Z.of_nat (List.length leaves0))%Z)
      by (unfold sibling_index; destruct (truthy (leaf_index mod 2)); lia).
    destruct (Z.ltb_spec sibling_index (Z.of_nat (List.length leaves0)))
      as [_|Hge]; [|lia].
    rewrite subscript_below by (now rewrite length_map). reflexivity.
Qed.

Lemma get_proof_out_of_range_witness :
  exists t,
    init default_limit ["A"; "B"; "C"; "D"] = Ok t
    /\ ((Z.of_nat (List.length ["A"; "B"; "C"; "D"]) <= 4)%Z ->
        exists proof,
          get_proof t 4 = Ok proof
          /\ (List.length proof <= List.length (tree t) - 1)%nat)
    /\ ((2 <= List.length ["A"; "B"; "C"; "D"])%nat ->
        (4 < - Z.of_nat (List.length ["A"; "B"; "C"; "D"]) - 1)%Z ->
        get_proof t 4 = Raise IndexError).
Proof.
  eexists. split; [vm_compute; reflexivity|].
  apply (get_proof_out_of_range default_limit ["A"; "B"; "C"; "D"]).
  vm_compute. reflexivity.
Defined.

(** C8, as stated, fails: on the tree over four leaves the index 4 is out
    of range, and [get_proof] returns the empty proof. *)
Lemma get_proof_out_of_range_returns :
  exists t,
    init default_limit ["A"; "B"; "C"; "D"] = Ok t
    /\ ~ (0 <= 4 < Z.of_nat (List.length (leaves t)))%Z
    /\ get_proof t 4 = Ok [].
Proof.
  eexists. split; [vm_compute; reflexivity|]. split.
  - cbn. lia.
  - vm_compute. reflexivity.
Qed.

(** Negative indices are Python subscripts from the end: on four leaves
    [-1] yields the proof of the last leaf, and [-6] raises [IndexError]. *)
Example get_proof_negative :
  exists t,
    init default_limit ["A"; "B"; "C"; "D"] = Ok t
    /\ get_proof t (-1) = get_proof t 3
    /\ get_proof t (-6) = Raise IndexError.
Proof.
  eexists. split; [vm_compute; reflexivity|].
  split; vm_compute; reflexivity.
Qed.

(** ** Proof length is not checked *)

(** C3 (as amended).  [verify_proof] does not compare the length of the
    proof with the depth of the tree: it accepts whatever folds to the
    root.  On every tree built over at least two leaves, the proof of leaf
    0 has one entry for each level below the root and verifies, and the
    same proof without its first entry, one entry short, is accepted for
    the leaf value [hash(leaves[0]) + hash(leaves[1])]. *)
Theorem verify_proof_accepts_short_proof (limit : nat) (l0 l1 : string)
    (rest : list string) :
  (Nat.log2_up (List.length (l0 :: l1 :: rest)) < limit)%nat ->
  exists t proof,
    init limit (l0 :: l1 :: rest) = Ok t
    /\ get_proof t 0 = Ok (("right", hash l1) :: proof)
    /\ List.length (("right", hash l1) :: proof) = (List.length (tree t) - 1)%nat
    /\ verify_proof t l0 (("right", hash l1) :: proof) = Ok true
    /\ verify_proof t (hash l0 ++ hash l1) proof = Ok true.
Proof.
  intros Hlim.
  destruct (init_returns limit (l0 :: l1 :: rest) ltac:(discriminate) Hlim)
    as (ls & Hinit & Hls).
  destruct ls as [|l ls]; [cbn in Hls; discriminate|].
  destruct Hls as (_ & -> & Hls).
  set (lv0 := map hash (l0 :: l1 :: rest)) in *.
  destruct (get_proof_loop_paired ls (next_level lv0) [("right", hash l1)] 0 Hls)
    as (p & Hloop & Hlen & Hver).
  { pose proof (levels_from_nonempty _ _ Hls).
    destruct (next_level lv0); [congruence | cbn; lia]. }
  { apply paired_first, Hls. }
  destruct (get_root_levels ls lv0 _ Hls) as (root & Hlast & _).
  rewrite Hlast in Hver. cbn [nth] in Hver.
  assert (Hroot : get_root (mkMerkleTree lv0 (lv0 :: next_level lv0 :: ls))
                  = Ok root).
  { unfold get_root. cbn [tree].
    rewrite (subscript_last _ []) by discriminate.
    change (last (?a :: ?b :: ?c) []) with (last (b :: c) []).
    now rewrite Hlast. }
  change (nth 0 (next_level lv0) "") with (hash (hash l0 ++ hash l1)) in Hver.
  eexists. exists p. split; [exact Hinit|]. repeat split.
  - unfold get_proof. cbn [tree List.length].
    change (firstn (S (S (List.length ls)) - 1) (lv0 :: next_level lv0 :: ls))
      with (lv0 :: firstn (List.length ls) (next_level lv0 :: ls)).
    cbn [get_proof_loop]. change (truthy (0 mod 2)) with false. cbv iota.
    change (0 + 1)%Z with (Z.of_nat 1).
    destruct (Z.ltb_spec (Z.of_nat 1) (Z.of_nat (List.length lv0))) as [_|Hge];
      [|cbn in Hge; lia].
    rewrite (subscript_nat lv0 1 "") by (cbn; lia). cbn [bind].
    exact Hloop.
  - cbn [tree List.length]. lia.
  - unfold verify_proof. rewrite Hroot. cbn [bind verify_proof_loop].
    change ("right" =? "left")%string with false. cbv iota.
    rewrite Hver. now rewrite String.eqb_refl.
  - unfold verify_proof. rewrite Hroot. cbn [bind].
    rewrite Hver. now rewrite String.eqb_refl.
Qed.

Lemma verify_proof_accepts_short_proof_witness :
  exists t proof,
    init default_limit ["A"; "B"; "C"; "D"] = Ok t
    /\ get_proof t 0 = Ok (("right", hash "B") :: proof)
    /\ List.length (("right", hash "B") :: proof) = (List.length (tree t) - 1)%nat
    /\ verify_proof t "A" (("right", hash "B") :: proof) = Ok true
    /\ verify_proof t (hash "A" ++ hash "B") proof = Ok true.
Proof.
  apply (verify_proof_accepts_short_proof default_limit "A" "B" ["C"; "D"]).
  vm_compute. lia.
Defined.

(** C3, as stated, fails: the tree over four leaves has two levels below
    the root, and a proof of length one is accepted. *)
Lemma verify_proof_length_unchecked :
  exists t,
    init default_limit ["A"; "B"; "C"; "D"] = Ok t
    /\ (List.length (tree t) - 1 = 2)%nat
    /\ verify_proof t (hash "A" ++ hash "B")
         [("right", hash (hash "C" ++ hash "D"))] = Ok true.
Proof.
  eexists. split; [vm_compute; reflexivity|].
  split; vm_compute; reflexivity.
Qed.

(** ** The unpaired last node of a level of odd length *)

(** X6.  [build_tree] pairs the last node of a level of odd length with
    itself, but [get_proof] finds no sibling at [current_index + 1] there
    and appends nothing for that level: on every tree over an odd number of
    leaves, at least three, the proof of the last leaf has fewer entries
    than there are levels below the root. *)
Lemma get_proof_last_of_odd (limit : nat) (leaves0 : list string) :
  Nat.odd (List.length leaves0) = true ->
  (3 <= List.length leaves0)%nat ->
  (Nat.log2_up (List.length leaves0) < limit)%nat ->
  exists t proof,
    init limit leaves0 = Ok t
    /\ get_proof t (Z.of_nat (List.length leaves0) - 1) = Ok proof
    /\ (List.length proof < List.length (tree t) - 1)%nat.
Proof.
  intros Hodd Hlen Hlim.
  destruct (init_returns limit leaves0) as (ls & Hinit & Hls); [|assumption|].
  { destruct leaves0; [cbn in Hlen; lia | discriminate]. }
  destruct ls as [|l ls].
  { cbn in Hls. rewrite length_map in Hls. lia. }
  destruct Hls as (_ & -> & Hls).
  apply Nat.odd_spec in Hodd as [m Hm].
  destruct (get_proof_loop_nonneg
              (firstn (List.length ls) (next_level (map hash leaves0) :: ls))
              [] ((Z.of_nat (List.length leaves0) - 1) / 2)%Z) as (p & Hp & Hlenp).
  { apply Z.div_pos; lia. }
  eexists. exists p. split; [exact Hinit|]. split.
  - unfold get_proof. cbn [tree List.length].
    change (firstn (S (S (List.length ls)) - 1) (?a :: ?b :: ls))
      with (a :: firstn (List.length ls) (b :: ls)).
    cbn [get_proof_loop]. rewrite length_map.
    replace ((Z.of_nat (List.length leaves0) - 1) mod 2)%Z with 0%Z.
    2:{ replace (Z.of_nat (List.length leaves0) - 1)%Z with (Z.of_nat m * 2)%Z by lia.
        now rewrite Z.mod_mul by lia. }
    change (truthy 0) with false. cbv iota.
    destruct (Z.ltb_spec (Z.of_nat (List.length leaves0) - 1 + 1)
                (Z.of_nat (List.length leaves0))) as [Hlt|_]; [lia|].
    cbn [bind]. exact Hp.
  - cbn [tree List.length]. rewrite length_firstn in Hlenp. lia.
Qed.

(** C1, at the input where the code departs from it.  On the tree over
    ["A"; "B"; "C"] the index 2 is in range, and the proof that
    [get_proof] returns for it is rejected by [verify_proof]. *)
Theorem round_trip_fails_on_odd_level :
  exists t proof,
    init default_limit ["A"; "B"; "C"] = Ok t
    /\ (0 <= 2 < Z.of_nat (List.length (leaves t)))%Z
    /\ get_proof t 2 = Ok proof
    /\ verify_proof t "C" proof = Ok false.
Proof.
  eexists. eexists. split; [vm_compute; reflexivity|]. split; [cbn; lia|].
  split; [vm_compute; reflexivity|]. vm_compute. reflexivity.
Qed.

(** C2, at the input where the code departs from it.  Level 0 of the tree
    over ["A"; "B"; "C"] has three digests.  The proof returned for the
    last position has a single entry, the left sibling one level up: it has
    no entry holding the node's own digest, and it is rejected.  The proof
    that the duplicate-last-node rule calls for, with the node's own digest
    as right sibling first, is accepted. *)
Theorem last_leaf_proof_lacks_duplicate :
  exists t,
    init default_limit ["A"; "B"; "C"] = Ok t
    /\ nth_error (tree t) 0 = Some [hash "A"; hash "B"; hash "C"]
    /\ get_proof t 2 = Ok [("left", hash (hash "A" ++ hash "B"))]
    /\ ~ In (hash "C") (map snd [("left", hash (hash "A" ++ hash "B"))])
    /\ verify_proof t "C" [("left", hash (hash "A" ++ hash "B"))] = Ok false
    /\ verify_proof t "C"
         [("right", hash "C"); ("left", hash (hash "A" ++ hash "B"))] = Ok true.
Proof.
  eexists. split; [vm_compute; reflexivity|].
  split; [vm_compute; reflexivity|].
  split; [vm_compute; reflexivity|].
  split.
  - intros [H|[]]. revert H. vm_compute. discriminate.
  - split; vm_compute; reflexivity.
Qed.

(** * Further properties of the code *)

(** ** Digests have a fixed size *)

Lemma string_length_append (s1 s2 : string) :
  String.length (s1 ++ s2) = (String.length s1 + String.length s2)%nat.
Proof. induction s1 as [|ch s1 IH]; cbn; [reflexivity | now rewrite IH]. Qed.


Lemma all_chars_append (f : ascii -> bool) (s1 s2 : string) :
  all_chars f (s1 ++ s2) = all_chars f s1 && all_chars f s2.
Proof.
  induction s1 as [|ch s1 IH]; cbn; [reflexivity|].
  now rewrite IH, andb_assoc.
Qed.

Lemma hex_digit_lower (x : Z) :
  (0 <= x < 16)%Z -> lower_hex (hashlib.hex_digit x) = true.
Proof.
  intros Hx.
  assert (H : In x [0; 1; 2; 3; 4; 5; 6; 7; 8; 9; 10; 11; 12; 13; 14; 15]%Z)
    by (cbn; lia).
  cbn in H. repeat (destruct H as [<-|H]; [reflexivity|]). destruct H.
Qed.

Lemma hex_shape (n : nat) (x : Z) :
  String.length (hashlib.hex n x) = n
  /\ all_chars lower_hex (hashlib.hex n x) = true.
Proof.
  induction n as [|n [IHlen IHall]]; [now split|].
  cbn [hashlib.hex String.length all_chars]. split; [now rewrite IHlen|].
  rewrite IHall, andb_true_r. apply hex_digit_lower.
  change 15%Z with (Z.ones 4). rewrite Z.land_ones by lia.
  apply Z.mod_pos_bound. lia.
Qed.

Lemma hexdigest_shape (digest : list Z) :
  String.length (hashlib.hexdigest digest) = (8 * List.length digest)%nat
  /\ all_chars lower_hex (hashlib.hexdigest digest) = true.
Proof.
  unfold hashlib.hexdigest.
  induction digest as [|w digest [IHlen IHall]]; [now split|].
  cbn [fold_right List.length].
  rewrite string_length_append, all_chars_append, IHlen, IHall.
  destruct (hex_shape 8 w) as [-> ->]. split; [lia | reflexivity].
Qed.

Lemma compress_length (hs block : list Z) :
  List.length hs = 8%nat -> List.length (hashlib.compress hs block) = 8%nat.
Proof.
  intros Hhs. unfold hashlib.compress.
  rewrite length_map, length_combine, Hhs. reflexivity.
Qed.

Lemma blocks_length (n : nat) :
  forall ws hs,
    List.length hs = 8%nat -> List.length (hashlib.blocks n ws hs) = 8%nat.
Proof.
  induction n as [|n IH]; intros ws hs Hhs; [exact Hhs|].
  cbn [hashlib.blocks]. apply IH, compress_length, Hhs.
Qed.

Local Transparent hash.

Lemma hash_shape (data : string) :
  String.length (hash data) = 64%nat /\ all_chars lower_hex (hash data) = true.
Proof.
  unfold hash.
  destruct (hexdigest_shape (hashlib.sha256 (encode data))) as [Hlen Hall].
  split; [|exact Hall]. rewrite Hlen.
  unfold hashlib.sha256. rewrite blocks_length; reflexivity.
Qed.

Local Opaque hash.



(** ** Every node is the digest of its children *)

Lemma nth_next_level_last (current : list string) :
  forall j,
    List.length current = (2 * j + 1)%nat ->
    nth j (next_level current) ""
    = hash (nth (2 * j) current "" ++ nth (2 * j) current "").
Proof.
  induction current as [| x | x y l IH] using list_ind2; intros j Hj.
  - cbn in Hj. lia.
  - destruct j as [|j]; [reflexivity | cbn in Hj; lia].
  - destruct j as [|j]; [cbn in Hj; lia|].
    cbn [next_level nth].
    replace (2 * S j)%nat with (S (S (2 * j))) by lia.
    cbn [nth]. apply IH. cbn [List.length] in Hj. lia.
Qed.

(** X2.  In a built tree, node [j] of a level above level 0 is the digest
    of the concatenation of nodes [2j] and [2j + 1] of the level below; when
    the level below has no node [2j + 1], it is the digest of node [2j]
    concatenated with itself. *)
Theorem tree_nodes_hash_children (limit : nat) (leaves0 : list string)
    (t : MerkleTree) :
  init limit leaves0 = Ok t ->
  forall k lo hi j,
    nth_error (tree t) k = Some lo ->
    nth_error (tree t) (S k) = Some hi ->
    (j < List.length hi)%nat ->
    nth j hi ""
    = hash (nth (2 * j) lo ""
            ++ nth (if (2 * j + 1 <? List.length lo)%nat
                    then 2 * j + 1 else 2 * j)%nat lo "").
Proof.
  intros Hinit k lo hi j Hlo Hhi Hj.
  apply init_inv in Hinit as (ls & -> & Hls). cbn [tree] in Hlo, Hhi.
  destruct (levels_from_adjacent ls _ k lo hi Hls Hlo Hhi) as [-> _].
  rewrite length_next_level in Hj.
  pose proof (half_up_bounds (List.length lo)) as Hhalf.
  destruct (Nat.ltb_spec (2 * j + 1) (List.length lo)) as [Hlt|Hge].
  - now apply nth_next_level.
  - apply nth_next_level_last. lia.
Qed.

Lemma tree_nodes_hash_children_witness :
  exists t,
    init default_limit ["A"; "B"; "C"] = Ok t
    /\ forall k lo hi j,
        nth_error (tree t) k = Some lo ->
        nth_error (tree t) (S k) = Some hi ->
        (j < List.length hi)%nat ->
        nth j hi ""
        = hash (nth (2 * j) lo ""
                ++ nth (if (2 * j + 1 <? List.length lo)%nat
                        then 2 * j + 1 else 2 * j)%nat lo "").
Proof.
  eexists. split; [vm_compute; reflexivity|].
  apply (tree_nodes_hash_children default_limit ["A"; "B"; "C"]).
  vm_compute. reflexivity.
Defined.

(** ** How deep the construction recurses *)




(** ** Where the round trip holds, and where the proof falls short *)

Lemma round_trip_power_of_two_witness :
  exists t p,
    init default_limit ["A"; "B"; "C"; "D"] = Ok t
    /\ get_proof t (Z.of_nat 1) = Ok p
    /\ List.length p = 2%nat
    /\ verify_proof t (nth 1 ["A"; "B"; "C"; "D"] "") p = Ok true.
Proof.
  apply (round_trip_power_of_two default_limit 2 ["A"; "B"; "C"; "D"] 1).
  - reflexivity.
  - vm_compute. lia.
  - cbn. lia.
Defined.

Lemma get_proof_last_of_odd_witness :
  exists t proof,
    init default_limit ["A"; "B"; "C"] = Ok t
    /\ get_proof t (Z.of_nat (List.length ["A"; "B"; "C"]) - 1) = Ok proof
    /\ (List.length proof < List.length (tree t) - 1)%nat.
Proof.
  apply (get_proof_last_of_odd default_limit ["A"; "B"; "C"]).
  - reflexivity.
  - cbn. lia.
  - vm_compute. lia.
Defined.

Lemma paired_of_levels (ls : list (list string)) :
  forall current i,
    (forall k level,
        nth_error (current :: ls) k = Some level ->
        (k < List.length ls)%nat ->
        ((i / 2 ^ k) mod 2 = 0)%nat ->
        (i / 2 ^ k + 1 < List.length level)%nat) ->
    paired current ls i.
Proof.
  induction ls as [|l ls IH]; intros current i H; [exact I|].
  split.
  - intros Heven. specialize (H 0%nat current eq_refl).
    cbn [Nat.pow List.length] in H. rewrite Nat.div_1_r in H.
    apply H; [lia | exact Heven].
  - apply IH. intros k level Hk Hlt Heven.
    specialize (H (S k) level Hk).
    rewrite Nat.pow_succ_r', <- Nat.Div0.div_div in H.
    apply H; [cbn [List.length]; lia | exact Heven].
Qed.

(** X5.  On a built tree, take an index [i] in range whose path to the
    root never passes through the unpaired last node of a level: at every
    level [k] below the root, if [i // 2^k] is even then [i // 2^k + 1] is
    an index of that level.  Then [get_proof(i)] returns one entry for each
    level below the root, and [verify_proof] accepts it for [leaves[i]]. *)
Theorem round_trip_unless_unpaired (limit : nat) (leaves0 : list string)
    (t : MerkleTree) (i : nat) :
  init limit leaves0 = Ok t ->
  (i < List.length leaves0)%nat ->
  (forall k level,
      nth_error (tree t) k = Some level ->
      (S k < List.length (tree t))%nat ->
      ((i / 2 ^ k) mod 2 = 0)%nat ->
      (i / 2 ^ k + 1 < List.length level)%nat) ->
  exists p,
    get_proof t (Z.of_nat i) = Ok p
    /\ List.length p = (List.length (tree t) - 1)%nat
    /\ verify_proof t (nth i leaves0 "") p = Ok true.
Proof.
  intros Hinit Hi Hpath.
  apply init_inv in Hinit as (ls & -> & Hls). cbn [tree] in *.
  destruct (round_trip_paired leaves0 i ls Hls Hi) as (p & Hp & Hlen & Hv).
  { apply paired_of_levels. intros k level Hk Hlt Heven.
    apply Hpath; [exact Hk | cbn [List.length]; lia | exact Heven]. }
  exists p. split; [exact Hp|]. split; [|exact Hv].
  cbn [List.length]. lia.
Qed.

Lemma round_trip_unless_unpaired_witness :
  exists t,
    init default_limit ["A"; "B"; "C"] = Ok t
    /\ exists p,
        get_proof t (Z.of_nat 1) = Ok p
        /\ List.length p = (List.length (tree t) - 1)%nat
        /\ verify_proof t (nth 1 ["A"; "B"; "C"] "") p = Ok true.
Proof.
  eexists. split; [vm_compute; reflexivity|].
  apply (round_trip_unless_unpaired default_limit ["A"; "B"; "C"]).
  - vm_compute. reflexivity.
  - cbn. lia.
  - intros k level Hk Hlt Heven. cbn [tree List.length] in Hk, Hlt.
    destruct k as [|[|k]]; [| |lia].
    + cbn in Heven. discriminate.
    + injection Hk as <-. cbn. lia.
Defined.

(** ** What [verify_proof] reads in a proof *)

Lemma verify_proof_loop_positions (proof : list (string * string)) :
  forall current,
    verify_proof_loop current
      (map (fun entry => (read_position (fst entry), snd entry)) proof)
    = verify_proof_loop current proof.
Proof.
  induction proof as [|[position sibling] proof IH]; intros current;
    [reflexivity|].
  cbn [map fst snd verify_proof_loop]. rewrite IH. unfold read_position.
  destruct (position =? "left")%string; reflexivity.
Qed.

(** X11.  [verify_proof] only tests whether a position equals "left":
    every other string, "right" or not, puts the sibling on the right, and
    no position is rejected.  Replacing each position by "left" when it is
    "left" and by "right" otherwise never changes the result. *)
Theorem verify_proof_reads_positions (t : MerkleTree) (leaf : string)
    (proof : list (string * string)) :
  verify_proof t leaf
    (map (fun entry => (read_position (fst entry), snd entry)) proof)
  = verify_proof t leaf proof.
Proof. unfold verify_proof. now rewrite verify_proof_loop_positions. Qed.





(** ** An accepted proof leads to a node of the tree *)








(** ** Every leaf has a proof that is accepted *)

Lemma provable_from_level (ls : list (list string)) :
  forall level i,
    levels_from level ls ->
    (i < List.length level)%nat ->
    exists p,
      List.length p = List.length ls
      /\ verify_proof_loop (nth i level "") p
         = nth 0 (last (level :: ls) []) "".
Proof.
  induction ls as [|l ls IH]; intros level i Hls Hi.
  - exists []. split; [reflexivity|]. cbn in Hls |- *.
    destruct i; [reflexivity | lia].
  - destruct Hls as (_ & -> & Hls).
    pose proof (Nat.div_mod_eq i 2) as Hdm.
    pose proof (Nat.mod_upper_bound i 2 ltac:(lia)) as Hmod.
    pose proof (half_up_bounds (List.length level)) as Hhalf.
    destruct (IH (next_level level) (i / 2)%nat Hls) as (p & Hlen & Hv).
    { rewrite length_next_level. lia. }
    change (last (level :: next_level level :: ls) [])
      with (last (next_level level :: ls) []).
    rewrite <- Hv.
    destruct (Nat.eq_dec (i mod 2) 0) as [Heven|Hodd].
    + destruct (Nat.ltb_spec (i + 1) (List.length level)) as [Hlt|Hge].
      * exists (("right", nth (i + 1) level "") :: p).
        split; [cbn; lia|]. cbn [verify_proof_loop].
        change ("right" =? "left")%string with false. cbv iota. f_equal.
        rewrite nth_next_level by lia.
        replace (2 * (i / 2))%nat with i by lia. reflexivity.
      * exists (("right", nth i level "") :: p).
        split; [cbn; lia|]. cbn [verify_proof_loop].
        change ("right" =? "left")%string with false. cbv iota. f_equal.
        rewrite nth_next_level_last by lia.
        replace (2 * (i / 2))%nat with i by lia. reflexivity.
    + exists (("left", nth (i - 1) level "") :: p).
      split; [cbn; lia|]. cbn [verify_proof_loop].
      change ("left" =? "left")%string with true. cbv iota. f_equal.
      rewrite nth_next_level by lia.
      replace (2 * (i / 2))%nat with (i - 1)%nat by lia.
      replace (i - 1 + 1)%nat with i by lia. reflexivity.
Qed.

(** X9.  On a built tree every leaf can be proved: for every index in
    range there is a proof with one entry for each level below the root
    that [verify_proof] accepts for that leaf, whether or not [get_proof]
    returns it. *)
Theorem every_leaf_has_accepted_proof (limit : nat) (leaves0 : list string)
    (t : MerkleTree) (i : nat) :
  init limit leaves0 = Ok t ->
  (i < List.length leaves0)%nat ->
  exists proof,
    List.length proof = (List.length (tree t) - 1)%nat
    /\ verify_proof t (nth i leaves0 "") proof = Ok true.
Proof.
  intros Hinit Hi.
  apply init_inv in Hinit as (ls & -> & Hls).
  destruct (provable_from_level ls (map hash leaves0) i Hls) as (p & Hlen & Hv).
  { now rewrite length_map. }
  destruct (get_root_levels ls (map hash leaves0) _ Hls) as (root & Hlast & Hroot).
  exists p. split; [cbn [tree List.length]; lia|].
  unfold verify_proof. rewrite Hroot. cbn [bind].
  rewrite Hlast in Hv. cbn [nth] in Hv.
  assert (E : hash (nth i leaves0 "") = nth i (map hash leaves0) "").
  { rewrite (nth_indep (map hash leaves0) "" (hash ""))
      by (now rewrite length_map).
    now rewrite map_nth. }
  rewrite E, Hv. now rewrite String.eqb_refl.
Qed.

Lemma every_leaf_has_accepted_proof_witness :
  exists t,
    init default_limit ["A"; "B"; "C"] = Ok t
    /\ exists proof,
        List.length proof = (List.length (tree t) - 1)%nat
        /\ verify_proof t (nth 2 ["A"; "B"; "C"] "") proof = Ok true.
Proof.
  eexists. split; [vm_compute; reflexivity|].
  apply (every_leaf_has_accepted_proof default_limit ["A"; "B"; "C"]).
  - vm_compute. reflexivity.
  - cbn. lia.
Defined.

(** ** The root binds the leaves of trees of one size *)






(** ** What a returned proof is made of *)

Lemma get_proof_loop_entries (levels : list (list string)) :
  forall acc i,
    (0 <= i)%Z ->
    exists p,
      get_proof_loop levels acc i = Ok (acc ++ p)
      /\ (List.length p <= List.length levels)%nat
      /\ Forall (fun entry =>
                   (fst entry = "left" \/ fst entry = "right")
                   /\ exists level, In level levels /\ In (snd entry) level) p.
Proof.
  induction levels as [|current levels IH]; intros acc i Hi.
  - exists []. cbn. rewrite app_nil_r.
    split; [reflexivity|]. split; [lia | constructor].
  - cbn [get_proof_loop].
    assert (Hhalf : (0 <= i / 2)%Z) by (apply Z.div_pos; lia).
    set (sibling_index := if truthy (i mod 2) then (i - 1)%Z else (i + 1)%Z).
    assert (Hsib : (0 <= sibling_index)%Z).
    { unfold sibling_index, truthy.
      destruct (Z.eqb_spec (i mod 2) 0) as [_|Hodd]; cbn [negb]; [lia|].
      destruct (Z.eq_dec i 0) as [->|]; [now elim Hodd | lia]. }
    assert (Hweaken :
      forall p,
        Forall (fun entry =>
                  (fst entry = "left" \/ fst entry = "right")
                  /\ exists level, In level levels /\ In (snd entry) level) p ->
        Forall (fun entry =>
                  (fst entry = "left" \/ fst entry = "right")
                  /\ exists level,
                       In level (current :: levels) /\ In (snd entry) level) p).
    { intros p Hp. eapply Forall_impl; [|exact Hp].
      intros entry (Hpos & level & Hin & Hd). split; [exact Hpos|].
      exists level. split; [now right | exact Hd]. }
    destruct (Z.ltb_spec sibling_index (Z.of_nat (List.length current)))
      as [Hlt|_].
    + rewrite <- (Z2Nat.id sibling_index Hsib).
      rewrite (subscript_nat current _ "") by lia. cbn [bind].
      destruct (IH (acc ++ [(if truthy (i mod 2) then "left" else "right",
                             nth (Z.to_nat sibling_index) current "")])
                  (i / 2)%Z Hhalf) as (p & Hp & Hlen & Hall).
      eexists (_ :: p). rewrite Hp, <- app_assoc. split; [reflexivity|].
      split; [cbn [List.length]; lia|].
      constructor; [|now apply Hweaken]. cbn [fst snd]. split.
      * destruct (truthy (i mod 2)); auto.
      * exists current. split; [now left|]. apply nth_In. lia.
    + cbn [bind]. destruct (IH acc (i / 2)%Z Hhalf) as (p & Hp & Hlen & Hall).
      exists p. split; [exact Hp|]. split; [cbn [List.length]; lia|].
      now apply Hweaken.
Qed.

Lemma In_firstn {A : Type} (n : nat) :
  forall (l : list A) (x : A), In x (firstn n l) -> In x l.
Proof.
  induction n as [|n IH]; intros [|y l] x; cbn; try tauto.
  intros [->|H]; [now left | right; now apply IH].
Qed.

(** X7.  For every index that is not negative, in range or beyond it,
    [get_proof] raises nothing and returns at most one entry for each level
    below the root; every entry is marked "left" or "right" and carries a
    digest stored in one of the levels of the tree. *)
Theorem get_proof_entries (t : MerkleTree) (leaf_index : Z) :
  (0 <= leaf_index)%Z ->
  exists proof,
    get_proof t leaf_index = Ok proof
    /\ (List.length proof <= List.length (tree t) - 1)%nat
    /\ Forall (fun entry =>
                 (fst entry = "left" \/ fst entry = "right")
                 /\ exists level, In level (tree t) /\ In (snd entry) level)
         proof.
Proof.
  intros Hidx. unfold get_proof.
  destruct (get_proof_loop_entries
              (firstn (List.length (tree t) - 1) (tree t)) [] leaf_index Hidx)
    as (p & Hp & Hlen & Hall).
  exists p. split; [exact Hp|]. split.
  - rewrite length_firstn in Hlen. lia.
  - eapply Forall_impl; [|exact Hall].
    intros entry (Hpos & level & Hin & Hd). split; [exact Hpos|].
    exists level. split; [|exact Hd]. eapply In_firstn, Hin.
Qed.

Lemma get_proof_entries_witness :
  exists t,
    init default_limit ["A"; "B"; "C"] = Ok t
    /\ (0 <= 2)%Z
    /\ exists proof,
        get_proof t 2 = Ok proof
        /\ (List.length proof <= List.length (tree t) - 1)%nat
        /\ Forall (fun entry =>
                     (fst entry = "left" \/ fst entry = "right")
                     /\ exists level, In level (tree t) /\ In (snd entry) level)
             proof.
Proof.
  eexists. split; [vm_compute; reflexivity|].
  assert (H : (0 <= 2)%Z) by lia.
  split; [exact H|]. exact (get_proof_entries _ 2 H).
Defined.

(** ** All nodes are digests *)

Lemma next_level_shape (l : list string) :
  Forall (fun d => String.length d = 64%nat /\ all_chars lower_hex d = true)
    (next_level l).
Proof.
  induction l as [| x | x y l IH] using list_ind2; cbn [next_level];
    repeat constructor; try apply hash_shape. exact IH.
Qed.

Lemma levels_from_shape (ls : list (list string)) :
  forall current,
    levels_from current ls ->
    Forall (Forall (fun d => String.length d = 64%nat
                             /\ all_chars lower_hex d = true)) ls.
Proof.
  induction ls as [|l ls IH]; intros current Hls; [constructor|].
  destruct Hls as (_ & -> & Hls). constructor.
  - apply next_level_shape.
  - apply (IH _ Hls).
Qed.

(** X13.  Every node of every level of a built tree, the leaf level
    included, is a string of 64 lowercase hexadecimal digits: the tree
    stores digests only, never the data of a leaf. *)
Theorem tree_nodes_fixed_size (limit : nat) (leaves0 : list string)
    (t : MerkleTree) :
  init limit leaves0 = Ok t ->
  forall level d,
    In level (tree t) -> In d level ->
    String.length d = 64%nat /\ all_chars lower_hex d = true.
Proof.
  intros Hinit level d Hlevel Hd.
  apply init_inv in Hinit as (ls & -> & Hls). cbn [tree] in Hlevel.
  destruct Hlevel as [<-|Hlevel].
  - apply in_map_iff in Hd as (x & <- & _). apply hash_shape.
  - pose proof (levels_from_shape ls _ Hls) as Hall.
    rewrite Forall_forall in Hall. specialize (Hall level Hlevel).
    rewrite Forall_forall in Hall. now apply Hall.
Qed.

Lemma tree_nodes_fixed_size_witness :
  exists t,
    init default_limit ["A"; "B"; "C"] = Ok t
    /\ forall level d,
        In level (tree t) -> In d level ->
        String.length d = 64%nat /\ all_chars lower_hex d = true.
Proof.
  eexists. split; [vm_compute; reflexivity|].
  apply (tree_nodes_fixed_size default_limit ["A"; "B"; "C"]).
  vm_compute. reflexivity.
Defined.
